(** * Shallow embedding of the lust reader (lust-syntax/src/read)

    The reader lexes the source with a logos lexer, then runs a chumsky
    grammar over the token stream.  This file embeds:
    - the token and syntax-tree types the reader builds
      ([Token], [Lit], [AtomKind], [Atom], [Sexpr], [SexprKind], [Root]);
    - the chumsky combinators the grammar uses, over an offset-addressed
      token stream with an end-of-input span;
    - [sexpr_reader], [root_reader] and [read] of read/mod.rs. *)

From Stdlib Require Import String Ascii List ZArith Bool Lia Arith.
Import ListNotations.
Open Scope string_scope.

(** ** Spans: half-open byte ranges [start, end). *)

Record Span := mkSpan { sp_start : nat; sp_end : nat }.

Definition span_eq_dec (a b : Span) : {a = b} + {a <> b}.
Proof. decide equality; apply Nat.eq_dec. Defined.

(** ** Tokens (read/token.rs).  The module is not part of the sources; its
    constructors are the ones read/mod.rs matches on. *)

Module Token.
Inductive t : Type :=
| Ident (name : string)
| Int (n : Z)
| Real (text : string)
| Rational (q : Z * Z)
| Bool (b : bool)
| String (s : string)
| LParen | RParen | LBrack | RBrack | HashLBrack
| Quote | Backquote | Comma | CommaAt
| Period | Ellipsis
| Error.

Definition eq_dec (a b : t) : {a = b} + {a <> b}.
Proof.
  decide equality;
    first [apply string_dec | apply Z.eq_dec | apply bool_dec
          | decide equality; apply Z.eq_dec].
Defined.
End Token.

(** ** Syntax tree (read/sexpr.rs), with the constructors the reader uses:
    [SexprKind::List] for every bracketed form and [AtomKind::Path] for
    dotted paths.  Interned strings are modelled by their text. *)

Module Lit.
Inductive t : Type :=
| Int (n : Z)
| Real (text : string)
| Rational (q : Z * Z)
| Bool (b : bool)
| String (s : string).
End Lit.

Module AtomKind.
Inductive t : Type :=
| Sym (name : string)
| Path (names : list string)
| Lit (l : Lit.t).
End AtomKind.

Record Atom := Atom_new { atom_kind : AtomKind.t; atom_span : Span }.

Inductive Sexpr : Type :=
| Sexpr_new (kind : SexprKind) (span : Span)
with SexprKind : Type :=
| SexprKind_Atom (a : Atom)
| SexprKind_List (l : list Sexpr).

Definition sexpr_kind (s : Sexpr) : SexprKind :=
  match s with Sexpr_new k _ => k end.

Definition sexpr_span (s : Sexpr) : Span :=
  match s with Sexpr_new _ sp => sp end.

Record Root := Root_new { sexprs : list Sexpr; root_span : Span }.

Inductive SyntaxError : Type :=
| LexError (sp : Span)
(** chumsky's [Rich] error, kept as the span it points at *)
| ParseError (sp : Span).

(** ** chumsky over a spanned token stream

    A parser runs at an offset into the token array and threads chumsky's
    "alternative error" slot: the offset of the furthest failure seen so far
    (errors are merged by furthest position).  A successful parser returns
    its output, the offset after it and the slot; a failed one returns the
    slot, which then holds the failure. *)

Record Input := Input_new { toks : list (Token.t * Span); eoi : Span }.

Inductive PResult (A : Type) : Type :=
| POk (x : A) (off : nat) (alt : option nat)
| PErr (alt : nat).
Arguments POk {A}.
Arguments PErr {A}.

Definition Parser (A : Type) : Type := nat -> option nat -> PResult A.

Definition record_err (alt : option nat) (off : nat) : nat :=
  match alt with None => off | Some a => Nat.max a off end.

Section Chumsky.
Variable inp : Input.

Definition tok_at (i : nat) : option Token.t :=
  option_map fst (nth_error (toks inp) i).

(** [SpannedInput::span]: start of the token at the start offset, end of
    the token just before the end offset (its [prev]), the end-of-input
    span's start where there is no such token. *)
Definition tok_start (i : nat) : nat :=
  match nth_error (toks inp) i with
  | Some (_, s) => sp_start s
  | None => sp_start (eoi inp)
  end.

Definition tok_end_before (j : nat) : nat :=
  match nth_error (toks inp) (pred j) with
  | Some (_, s) => sp_end s
  | None => sp_start (eoi inp)
  end.

Definition span (a b : nat) : Span := mkSpan (tok_start a) (tok_end_before b).
Arguments span : simpl never.

(** the span a [Rich] error reports: the token at the offset of the
    furthest failure, or end of input.  The position at which chumsky files
    a failed token match, and which of two failures at the same position it
    keeps, are decided inside chumsky, which is not among the sources; this
    rule follows "furthest failure wins" and may point at a different token
    than chumsky where failures of one run sit at different offsets. *)
Definition err_span (i : nat) : Span :=
  match nth_error (toks inp) i with
  | Some (_, s) => s
  | None => eoi inp
  end.

Definition select {A} (f : Token.t -> option A) : Parser A :=
  fun off alt =>
    match tok_at off with
    | Some t =>
        match f t with
        | Some a => POk a (S off) alt
        | None => PErr (record_err alt off)
        end
    | None => PErr (record_err alt off)
    end.

Definition just (t : Token.t) : Parser Token.t :=
  select (fun t' => if Token.eq_dec t t' then Some t' else None).

Definition end_ : Parser unit :=
  fun off alt =>
    if Nat.leb (List.length (toks inp)) off then POk tt off alt
    else PErr (record_err alt off).

Definition pmap {A B} (f : A -> B) (p : Parser A) : Parser B :=
  fun off alt =>
    match p off alt with
    | POk a o al => POk (f a) o al
    | PErr e => PErr e
    end.

Definition map_with_span {A B} (f : A -> Span -> B) (p : Parser A) : Parser B :=
  fun off alt =>
    match p off alt with
    | POk a o al => POk (f a (span off o)) o al
    | PErr e => PErr e
    end.

Definition then_ {A B} (p : Parser A) (q : Parser B) : Parser (A * B) :=
  fun off alt =>
    match p off alt with
    | POk a o al =>
        match q o al with
        | POk b o' al' => POk (a, b) o' al'
        | PErr e => PErr e
        end
    | PErr e => PErr e
    end.

Definition ignore_then {A B} (p : Parser A) (q : Parser B) : Parser B :=
  pmap snd (then_ p q).

Definition then_ignore {A B} (p : Parser A) (q : Parser B) : Parser A :=
  pmap fst (then_ p q).

(** [p.delimited_by(l, r)] is [l.ignore_then(p).then_ignore(r)] *)
Definition delimited_by {A B C} (p : Parser A) (l : Parser B) (r : Parser C)
  : Parser A :=
  then_ignore (ignore_then l p) r.

(** [p.or(q)]: on failure of [p], rewind and run [q] *)
Definition or_ {A} (p q : Parser A) : Parser A :=
  fun off alt =>
    match p off alt with
    | POk a o al => POk a o al
    | PErr e => q off (Some e)
    end.

(** [p.repeated()]: run [p] until it fails, rewinding the failed attempt.
    Every repeated parser of the reader consumes a token when it succeeds,
    so one more round than there are tokens is enough fuel. *)
Fixpoint repeated_go {A} (p : Parser A) (fuel off : nat) (alt : option nat)
  (acc : list A) : list A * nat * option nat :=
  match fuel with
  | O => (rev acc, off, alt)
  | S f =>
      match p off alt with
      | POk a o al => repeated_go p f o al (a :: acc)
      | PErr e => (rev acc, off, Some e)
      end
  end.

(** [p.repeated().at_least(n).collect()] *)
Definition at_least {A} (n : nat) (p : Parser A) : Parser (list A) :=
  fun off alt =>
    match repeated_go p (S (List.length (toks inp))) off alt [] with
    | (xs, o, al) =>
        if Nat.leb n (List.length xs) then POk xs o al
        else PErr (match al with Some e => e | None => o end)
    end.

Definition repeated {A} (p : Parser A) : Parser (list A) := at_least 0 p.

(** ** The grammar (read/mod.rs) *)

Definition ident_reader : Parser string :=
  select (fun t => match t with Token.Ident name => Some name | _ => None end).

Definition lit_reader : Parser Lit.t :=
  select (fun t =>
    match t with
    | Token.Int n => Some (Lit.Int n)
    | Token.Real n => Some (Lit.Real n)
    | Token.Rational n => Some (Lit.Rational n)
    | Token.Bool b => Some (Lit.Bool b)
    | Token.String s => Some (Lit.String s)
    | _ => None
    end).

(** the synthetic head [Sexpr::new(Atom(Atom::new(Sym(name), sp)), sp')] *)
Definition sym_sexpr (name : string) (atom_sp sp : Span) : Sexpr :=
  Sexpr_new (SexprKind_Atom (Atom_new (AtomKind.Sym name) atom_sp)) sp.

(** quote, quasiquote, unquote and unquote_splice are four copies of one
    production that differ in the marker token and the head symbol:
    [just(tok).map_with_span(|_, span| span).then(sexpr)
       .map(|(span, sexpr)| List [Sym(name) @ span; sexpr])
       .map_with_span(Sexpr::new)] *)
Definition quote_form (sexpr : Parser Sexpr) (tok : Token.t) (name : string)
  : Parser Sexpr :=
  map_with_span Sexpr_new
    (pmap (fun '(sp, s) => SexprKind_List [sym_sexpr name sp sp; s])
       (then_ (map_with_span (fun _ sp => sp) (just tok)) sexpr)).

Fixpoint sexpr_reader (fuel : nat) : Parser Sexpr :=
  match fuel with
  | O => fun off alt => PErr (record_err alt off)
  | S f =>
      let sexpr := sexpr_reader f in
      (* path = symbol ("." symbol)+ *)
      let path :=
        pmap AtomKind.Path
          (pmap (fun '(lhs, rhs) => lhs :: rhs)
             (then_ ident_reader
                (at_least 1 (ignore_then (just Token.Period) ident_reader)))) in
      let atom :=
        map_with_span Sexpr_new
          (pmap SexprKind_Atom
             (map_with_span Atom_new
                (or_ (or_ path (pmap AtomKind.Sym ident_reader))
                   (pmap AtomKind.Lit lit_reader)))) in
      let list :=
        delimited_by
          (map_with_span Sexpr_new (pmap SexprKind_List (at_least 1 sexpr)))
          (just Token.LParen) (just Token.RParen) in
      let list_lit :=
        delimited_by
          (map_with_span Sexpr_new
             (map_with_span
                (fun l sp =>
                   SexprKind_List
                     (sym_sexpr "list" (mkSpan (sp_start sp) (sp_start sp)) sp :: l))
                (at_least 1 sexpr)))
          (just Token.LBrack) (just Token.RBrack) in
      let vector :=
        delimited_by
          (map_with_span Sexpr_new (pmap SexprKind_List (repeated sexpr)))
          (just Token.HashLBrack) (just Token.RBrack) in
      let quote := quote_form sexpr Token.Quote "quote" in
      let quasiquote := quote_form sexpr Token.Backquote "quasiquote" in
      let unquote := quote_form sexpr Token.Comma "unquote" in
      let unquote_splice := quote_form sexpr Token.CommaAt "unquote-splicing" in
      (* map foo... to (varg foo) *)
      let variadic :=
        map_with_span Sexpr_new
          (map_with_span
             (fun name sp => SexprKind_List [sym_sexpr "varg" sp sp; sym_sexpr name sp sp])
             (then_ignore ident_reader (just Token.Ellipsis))) in
      or_ (or_ (or_ (or_ (or_ (or_ (or_ (or_ variadic list) list_lit) vector)
        quote) quasiquote) unquote) unquote_splice) atom
  end.

Definition root_reader (fuel : nat) : Parser Root :=
  map_with_span Root_new (repeated (sexpr_reader fuel)).

End Chumsky.

(** ** [read]: lex, stop on any lex fault, else parse [Root] then end. *)

Definition lex_errors (lexed : list (option Token.t * Span)) : list SyntaxError :=
  flat_map (fun '(r, sp) => match r with None => [LexError sp] | Some _ => [] end)
    lexed.

Definition read_lexed (lexed : list (option Token.t * Span)) (len : nat)
  : option Root * list SyntaxError :=
  let errs := lex_errors lexed in
  let tokens :=
    map (fun '(r, sp) => (match r with Some t => t | None => Token.Error end, sp))
      lexed in
  match errs with
  | _ :: _ => (None, errs)
  | [] =>
      let tok_stream := Input_new tokens (mkSpan len len) in
      match then_ignore (root_reader tok_stream (S (List.length tokens)))
              (end_ tok_stream) 0 None with
      | POk root _ _ => (Some root, [])
      | PErr e => (None, [ParseError (err_span tok_stream e)])
      end
  end.

(** ** The lexer

    Modelled from the spec: read/token.rs (the logos [Token] lexer) is not
    among the sources.  Per the spec (4.1): whitespace and [;] comments carry
    no token; punctuation [( ) [ ] #[ ' ` , ,@ . ...]; integer, real and
    rational numerals (optionally signed), booleans, strings; identifiers;
    every other slice becomes one error item ([Err(_)], here [None]) and the
    scan goes on. *)

Definition is_ws (c : ascii) : bool :=
  existsb (Ascii.eqb c) [" "%char; "010"%char; "009"%char; "013"%char].

Definition is_digit (c : ascii) : bool :=
  (Nat.leb 48 (nat_of_ascii c)) && (Nat.leb (nat_of_ascii c) 57).

Definition is_alpha (c : ascii) : bool :=
  ((Nat.leb 65 (nat_of_ascii c)) && (Nat.leb (nat_of_ascii c) 90))
  || ((Nat.leb 97 (nat_of_ascii c)) && (Nat.leb (nat_of_ascii c) 122)).

Definition is_ident_start (c : ascii) : bool :=
  is_alpha c || existsb (Ascii.eqb c) (list_ascii_of_string "+-*/<>=!?_%&|^~:$").

Definition is_ident_char (c : ascii) : bool := is_ident_start c || is_digit c.

Definition is_lexeme_start (c : ascii) : bool :=
  is_ws c || is_ident_char c
  || existsb (Ascii.eqb c) (list_ascii_of_string "()[]#'`,.;")
  || Ascii.eqb c "034"%char.

Fixpoint take_while (f : ascii -> bool) (cs : list ascii) : list ascii * list ascii :=
  match cs with
  | c :: rest => if f c then let '(a, b) := take_while f rest in (c :: a, b) else ([], cs)
  | [] => ([], [])
  end.

Definition digits_value (ds : list ascii) : Z :=
  fold_left (fun acc d => (acc * 10 + Z.of_nat (nat_of_ascii d - 48))%Z) ds 0%Z.

Definition starts_digit (cs : list ascii) : bool :=
  match cs with c :: _ => is_digit c | [] => false end.

(** a numeral after its optional sign: the token and the characters used *)
Definition lex_number (neg : bool) (cs : list ascii) : Token.t * list ascii * list ascii :=
  let '(ds, rest) := take_while is_digit cs in
  let sgn := fun z => if neg then Z.opp z else z in
  match rest with
  | "."%char :: rest1 =>
      if starts_digit rest1 then
        let '(fs, rest2) := take_while is_digit rest1 in
        (Token.Real (string_of_list_ascii (app ds ("."%char :: fs))),
         app ds ("."%char :: fs), rest2)
      else (Token.Int (sgn (digits_value ds)), ds, rest)
  | "/"%char :: rest1 =>
      if starts_digit rest1 then
        let '(es, rest2) := take_while is_digit rest1 in
        (Token.Rational (sgn (digits_value ds), digits_value es),
         app ds ("/"%char :: es), rest2)
      else (Token.Int (sgn (digits_value ds)), ds, rest)
  | _ => (Token.Int (sgn (digits_value ds)), ds, rest)
  end.

Fixpoint lex_go (fuel : nat) (cs : list ascii) (pos : nat)
  : list (option Token.t * Span) :=
  match fuel with
  | O => []
  | S f =>
      let emit t n rest := (Some t, mkSpan pos (pos + n)) :: lex_go f rest (pos + n) in
      match cs with
      | [] => []
      | c :: rest =>
          if is_ws c then lex_go f rest (S pos)
          else if Ascii.eqb c ";" then
            let '(cmt, rest') := take_while (fun d => negb (Ascii.eqb d "010")) rest in
            lex_go f rest' (S pos + List.length cmt)
          else if Ascii.eqb c "(" then emit Token.LParen 1 rest
          else if Ascii.eqb c ")" then emit Token.RParen 1 rest
          else if Ascii.eqb c "[" then emit Token.LBrack 1 rest
          else if Ascii.eqb c "]" then emit Token.RBrack 1 rest
          else if Ascii.eqb c "'" then emit Token.Quote 1 rest
          else if Ascii.eqb c "`" then emit Token.Backquote 1 rest
          else match c, rest with
          | "#"%char, "["%char :: rest' => emit Token.HashLBrack 2 rest'
          | ","%char, "@"%char :: rest' => emit Token.CommaAt 2 rest'
          | ","%char, _ => emit Token.Comma 1 rest
          | "."%char, "."%char :: "."%char :: rest' => emit Token.Ellipsis 3 rest'
          | "."%char, _ => emit Token.Period 1 rest
          | "034"%char, _ =>
              let '(body, rest') := take_while (fun d => negb (Ascii.eqb d "034")) rest in
              match rest' with
              | _ :: rest'' =>
                  emit (Token.String (string_of_list_ascii body))
                    (2 + List.length body) rest''
              | [] =>
                  (None, mkSpan pos (S pos + List.length body)) :: []
              end
          | _, _ =>
              if is_digit c then
                let '(t, used, rest') := lex_number false cs in
                emit t (List.length used) rest'
              else if (Ascii.eqb c "-" || Ascii.eqb c "+") && starts_digit rest then
                let '(t, used, rest') := lex_number (Ascii.eqb c "-") rest in
                emit t (S (List.length used)) rest'
              else if is_ident_start c then
                let '(word, rest') := take_while is_ident_char cs in
                let w := string_of_list_ascii word in
                let t := if String.eqb w "true" then Token.Bool true
                         else if String.eqb w "false" then Token.Bool false
                         else Token.Ident w in
                emit t (List.length word) rest'
              else
                let '(bad, rest') := take_while (fun d => negb (is_lexeme_start d)) rest in
                (None, mkSpan pos (S pos + List.length bad))
                  :: lex_go f rest' (S pos + List.length bad)
          end
      end
  end.

Definition lex (src : string) : list (option Token.t * Span) :=
  lex_go (S (String.length src)) (list_ascii_of_string src) 0.

(** [read(src)] of read/mod.rs *)
Definition read (src : string) : option Root * list SyntaxError :=
  read_lexed (lex src) (String.length src).

(** * Specification-side definitions *)

(** * Trees up to spans *)

Definition span0 : Span := mkSpan 0 0.

Fixpoint erase_sexpr (s : Sexpr) : Sexpr :=
  match s with Sexpr_new k _ => Sexpr_new (erase_kind k) span0 end
with erase_kind (k : SexprKind) : SexprKind :=
  match k with
  | SexprKind_Atom a => SexprKind_Atom (Atom_new (atom_kind a) span0)
  | SexprKind_List l => SexprKind_List (map erase_sexpr l)
  end.

(** the top-level forms of [read src], spans erased *)
Definition read_shape (src : string) : option (list Sexpr) :=
  option_map (fun r => map erase_sexpr (sexprs r)) (fst (read src)).

Definition atom0 (k : AtomKind.t) : Sexpr :=
  Sexpr_new (SexprKind_Atom (Atom_new k span0)) span0.
Definition sym0 (name : string) : Sexpr := atom0 (AtomKind.Sym name).
Definition int0 (n : Z) : Sexpr := atom0 (AtomKind.Lit (Lit.Int n)).
Definition list0 (l : list Sexpr) : Sexpr := Sexpr_new (SexprKind_List l) span0.

(** an integer literal read at [sp], as [atom] builds it *)
Definition int_at (n : Z) (sp : Span) : Sexpr :=
  Sexpr_new (SexprKind_Atom (Atom_new (AtomKind.Lit (Lit.Int n)) sp)) sp.

(** the spans of the [Err(_)] items of a lexer output *)
Definition err_spans (lexed : list (option Token.t * Span)) : list Span :=
  flat_map (fun '(r, sp) => match r with None => [sp] | Some _ => [] end) lexed.

(** * Span nesting *)

Definition span_within (inner outer : Span) : bool :=
  Nat.leb (sp_start outer) (sp_start inner) && Nat.leb (sp_end inner) (sp_end outer).

(** every node's span contains its atom's span, and the spans of its children *)
Fixpoint spans_nested (s : Sexpr) : bool :=
  match s with
  | Sexpr_new (SexprKind_Atom a) sp => span_within (atom_span a) sp
  | Sexpr_new (SexprKind_List l) sp =>
      forallb (fun c => span_within (sexpr_span c) sp && spans_nested c) l
  end.

Definition next_start (rest : list (option Token.t * Span)) (eoi_start : nat) : nat :=
  match rest with [] => eoi_start | (_, s) :: _ => sp_start s end.

(** the lexer's spans are well formed and in source order, within [0, len] *)
Fixpoint spans_ordered (lexed : list (option Token.t * Span)) (len : nat) : bool :=
  match lexed with
  | [] => true
  | (_, s) :: rest =>
      Nat.leb (sp_start s) (sp_end s) && Nat.leb (sp_end s) (next_start rest len)
      && spans_ordered rest len
  end.

Definition ordered (inp : Input) : Prop :=
  forall i, tok_start inp i <= tok_end_before inp (S i)
            /\ tok_end_before inp (S i) <= tok_start inp (S i).

(** [s] was read from the tokens [i, j) of [inp]: its span lies within
    theirs and its subtree is nested *)
Definition within_range (inp : Input) (i j : nat) (s : Sexpr) : Prop :=
  span_within (sexpr_span s) (span inp i j) = true /\ spans_nested s = true.

Definition ok_prop (inp : Input) (p : Parser Sexpr) : Prop :=
  forall off a x o a', p off a = POk x o a' -> off < o /\ within_range inp off o x.

(** the quote-family markers and the head symbols they produce *)
Definition quote_markers : list (Token.t * string) :=
  [(Token.Quote, "quote"); (Token.Backquote, "quasiquote");
   (Token.Comma, "unquote"); (Token.CommaAt, "unquote-splicing")].

(** * Dotted paths *)

Definition path_pairs (ys : list (string * Span * Span)) : list (Token.t * Span) :=
  flat_map (fun '(y, sp, sy) => [(Token.Period, sp); (Token.Ident y, sy)]) ys.

Definition path_names (ys : list (string * Span * Span)) : list string :=
  map (fun '(y, _, _) => y) ys.

(** a lexer output with no faults *)
Definition lexed_of (l : list (Token.t * Span)) : list (option Token.t * Span) :=
  map (fun '(t, s) => (Some t, s)) l.

(** the token stream [read] hands to the grammar *)
Definition read_input (src : string) : Input :=
  Input_new
    (map (fun '(r, sp) => (match r with Some t => t | None => Token.Error end, sp))
       (lex src))
    (mkSpan (String.length src) (String.length src)).

(** the forms of a list follow each other in the source: each one ends
    before the next one starts *)
Fixpoint forms_in_order (l : list Sexpr) : bool :=
  match l with
  | a :: ((b :: _) as t) =>
      Nat.leb (sp_end (sexpr_span a)) (sp_start (sexpr_span b)) && forms_in_order t
  | _ => true
  end.

(** the tokens that close or continue a form: none of them starts one *)
Definition stop_tokens : list Token.t :=
  [Token.RParen; Token.RBrack; Token.Period; Token.Ellipsis].

(** every '.' token in [off, o) is directly followed, before [o], by an
    identifier token *)
Definition periods_named (inp : Input) (off o : nat) : Prop :=
  forall k, off <= k -> k < o -> tok_at inp k = Some Token.Period ->
    S k < o /\ exists y, tok_at inp (S k) = Some (Token.Ident y).

(** a successful run moves forward and leaves no '.' without its name *)
Definition periods_ok {A} (inp : Input) (p : Parser A) : Prop :=
  forall off a x o a', p off a = POk x o a' -> off <= o /\ periods_named inp off o.

(** * Lemmas about the combinators *)

(** Two runs agree on success, output and end offset (the error slot may
    differ). *)
Definition same_outcome {A} (r1 r2 : PResult A) : Prop :=
  match r1, r2 with
  | POk x o _, POk y o' _ => x = y /\ o = o'
  | PErr _, PErr _ => True
  | _, _ => False
  end.

Definition alt_indep {A} (p : Parser A) : Prop :=
  forall off a1 a2, same_outcome (p off a1) (p off a2).

Section CombinatorLemmas.
Variable inp : Input.

Lemma select_alt_indep {A} (f : Token.t -> option A) : alt_indep (select inp f).
Proof.
  intros off a1 a2; unfold select.
  destruct (tok_at inp off) as [t|]; [destruct (f t)|]; simpl; auto.
Qed.

Lemma just_alt_indep t : alt_indep (just inp t).
Proof. apply select_alt_indep. Qed.

Lemma pmap_alt_indep {A B} (f : A -> B) p : alt_indep p -> alt_indep (pmap f p).
Proof.
  intros Hp off a1 a2; specialize (Hp off a1 a2); unfold pmap.
  destruct (p off a1), (p off a2); simpl in *; intuition congruence.
Qed.

Lemma map_with_span_alt_indep {A B} (f : A -> Span -> B) p :
  alt_indep p -> alt_indep (map_with_span inp f p).
Proof.
  intros Hp off a1 a2; specialize (Hp off a1 a2); unfold map_with_span.
  destruct (p off a1), (p off a2); simpl in *; intuition congruence.
Qed.

Lemma then_alt_indep {A B} (p : Parser A) (q : Parser B) :
  alt_indep p -> alt_indep q -> alt_indep (then_ p q).
Proof.
  intros Hp Hq off a1 a2; specialize (Hp off a1 a2); unfold then_.
  destruct (p off a1) as [x o al|], (p off a2) as [y o' al'|];
    simpl in *; try tauto.
  destruct Hp as [-> ->]. specialize (Hq o' al al').
  destruct (q o' al), (q o' al'); simpl in *; intuition congruence.
Qed.

Lemma or_alt_indep {A} (p q : Parser A) :
  alt_indep p -> alt_indep q -> alt_indep (or_ p q).
Proof.
  intros Hp Hq off a1 a2; specialize (Hp off a1 a2); unfold or_.
  destruct (p off a1), (p off a2); simpl in *; try tauto.
  apply Hq.
Qed.

Lemma repeated_go_alt_indep {A} (p : Parser A) :
  alt_indep p ->
  forall fuel off a1 a2 acc,
    fst (repeated_go p fuel off a1 acc) = fst (repeated_go p fuel off a2 acc).
Proof.
  intros Hp fuel; induction fuel as [|f IH]; intros off a1 a2 acc; simpl; auto.
  specialize (Hp off a1 a2).
  destruct (p off a1) as [x o al|], (p off a2) as [y o' al'|];
    simpl in *; try tauto.
  destruct Hp as [-> ->]; apply IH.
Qed.

Lemma at_least_alt_indep {A} n (p : Parser A) :
  alt_indep p -> alt_indep (at_least inp n p).
Proof.
  intros Hp off a1 a2; unfold at_least.
  pose proof (repeated_go_alt_indep p Hp (S (List.length (toks inp))) off a1 a2 [])
    as H.
  destruct (repeated_go p _ off a1 []) as [[xs o] al].
  destruct (repeated_go p _ off a2 []) as [[ys o'] al'].
  simpl in H; injection H as -> ->.
  destruct (Nat.leb n (List.length ys)); simpl; auto.
Qed.

Lemma end_alt_indep : alt_indep (end_ inp).
Proof.
  intros off a1 a2; unfold end_.
  destruct (Nat.leb (List.length (toks inp)) off); simpl; auto.
Qed.

Lemma sexpr_reader_alt_indep fuel : alt_indep (sexpr_reader inp fuel).
Proof.
  induction fuel as [|f IH].
  - intros off a1 a2; simpl; auto.
  - simpl.
    unfold quote_form, delimited_by, ignore_then, then_ignore, repeated.
    repeat first
      [ apply or_alt_indep | apply pmap_alt_indep
      | apply map_with_span_alt_indep | apply then_alt_indep
      | apply at_least_alt_indep | apply just_alt_indep
      | apply select_alt_indep | exact IH ].
Qed.
End CombinatorLemmas.

Lemma lex_errors_err_spans lexed :
  lex_errors lexed = map LexError (err_spans lexed).
Proof.
  induction lexed as [|[[t|] sp] rest IH]; simpl; auto.
  now rewrite IH.
Qed.

Ltac unfold_grammar :=
  cbv beta iota delta [or_ pmap map_with_span then_ ignore_then then_ignore
    delimited_by quote_form just select ident_reader lit_reader tok_at
    option_map fst snd repeated].


Section ReaderLemmas.
Variable inp : Input.

Lemma at_least_any_alt n (p : Parser Sexpr) off a xs o a' :
  alt_indep p -> at_least inp n p off a = POk xs o a' ->
  forall b, exists b', at_least inp n p off b = POk xs o b'.
Proof.
  intros Hp H b.
  pose proof (at_least_alt_indep inp n p Hp off a b) as Hs.
  rewrite H in Hs. destruct (at_least inp n p off b) as [ys o' b'|]; simpl in Hs;
    [|contradiction].
  destruct Hs as [-> ->]; eauto.
Qed.

Lemma sexpr_any_alt f off a s o a' :
  sexpr_reader inp f off a = POk s o a' ->
  forall b, exists b', sexpr_reader inp f off b = POk s o b'.
Proof.
  intros H b.
  pose proof (sexpr_reader_alt_indep inp f off a b) as Hs.
  rewrite H in Hs. destruct (sexpr_reader inp f off b) as [t o' b'|]; simpl in Hs;
    [|contradiction].
  destruct Hs as [-> ->]; eauto.
Qed.

Lemma repeated_at_least1 (p : Parser Sexpr) off a l o a' :
  repeated inp p off a = POk l o a' -> l <> [] -> at_least inp 1 p off a = POk l o a'.
Proof.
  unfold repeated, at_least.
  destruct (repeated_go p _ off a []) as [[xs o1] al].
  intros H Hl. cbn [Nat.leb] in H. injection H as <- <- <-.
  destruct xs; [congruence|reflexivity].
Qed.
End ReaderLemmas.

(** * Inverting successful runs *)

Section Inversion.
Variable inp : Input.

Lemma select_inv {A} (g : Token.t -> option A) off a x o a' :
  select inp g off a = POk x o a' ->
  o = S off /\ exists t, tok_at inp off = Some t /\ g t = Some x.
Proof.
  unfold select. destruct (tok_at inp off) as [t|]; [|discriminate].
  destruct (g t) eqn:Hg; [|discriminate].
  intros H; injection H as <- <- <-. eauto.
Qed.

Lemma just_inv t off a x o a' :
  just inp t off a = POk x o a' -> o = S off /\ tok_at inp off = Some t.
Proof.
  unfold just. intros H. apply select_inv in H as [-> [t' [Ht Hg]]].
  destruct (Token.eq_dec t t') as [<-|]; [|discriminate]. auto.
Qed.

Lemma pmap_inv {A B} (g : A -> B) p off a y o a' :
  pmap g p off a = POk y o a' -> exists x, p off a = POk x o a' /\ y = g x.
Proof.
  unfold pmap. destruct (p off a) as [x o1 al|]; [|discriminate].
  intros H; injection H as <- <- <-. eauto.
Qed.

Lemma map_with_span_inv {A B} (g : A -> Span -> B) p off a y o a' :
  map_with_span inp g p off a = POk y o a' ->
  exists x, p off a = POk x o a' /\ y = g x (span inp off o).
Proof.
  unfold map_with_span. destruct (p off a) as [x o1 al|]; [|discriminate].
  intros H; injection H as <- <- <-. eauto.
Qed.

Lemma then_inv {A B} (p : Parser A) (q : Parser B) off a z o a' :
  then_ p q off a = POk z o a' ->
  exists o1 a1, p off a = POk (fst z) o1 a1 /\ q o1 a1 = POk (snd z) o a'.
Proof.
  unfold then_. destruct (p off a) as [x o1 a1|]; [|discriminate].
  destruct (q o1 a1) as [y o2 a2|] eqn:Hq; [|discriminate].
  intros H; injection H as <- <- <-. eauto.
Qed.

Lemma delimited_by_inv {A B C} (p : Parser A) (l : Parser B) (r : Parser C)
  off a x o a' :
  delimited_by p l r off a = POk x o a' ->
  exists b c o1 o2 a1 a2 a3,
    l off a = POk b o1 a1 /\ p o1 a1 = POk x o2 a2 /\ r o2 a2 = POk c o a3.
Proof.
  unfold delimited_by, then_ignore, ignore_then.
  intros H. apply pmap_inv in H as [[x' c] [H ->]].
  apply then_inv in H as [o2 [a2 [H Hr]]]; simpl in *.
  apply pmap_inv in H as [[b x''] [H ->]].
  apply then_inv in H as [o1 [a1 [Hl Hp]]]; simpl in *.
  exists b, c, o1, o2, a1, a2, a'. auto.
Qed.

Lemma or_inv {A} (p q : Parser A) off a x o a' :
  or_ p q off a = POk x o a' ->
  (exists a'', p off a = POk x o a'') \/ (exists e a'', q off e = POk x o a'').
Proof.
  unfold or_. destruct (p off a) as [y o1 a1|e].
  - intros H; injection H as <- <- <-. eauto.
  - intros H. eauto.
Qed.
End Inversion.

Lemma spans_ordered_ordered (g : option Token.t -> Token.t) lexed len :
  spans_ordered lexed len = true ->
  ordered (Input_new (map (fun '(r, sp) => (g r, sp)) lexed) (mkSpan len len)).
Proof.
  induction lexed as [|[r s] rest IH]; intros H i.
  - unfold tok_start, tok_end_before; simpl; destruct i; simpl; lia.
  - simpl in H. apply andb_prop in H as [H Hrest].
    apply andb_prop in H as [H1 H2].
    apply Nat.leb_le in H1; apply Nat.leb_le in H2.
    destruct i as [|k].
    + unfold tok_start, tok_end_before; simpl.
      destruct rest as [|[r' s'] rest']; simpl in *; lia.
    + specialize (IH Hrest k). unfold tok_start, tok_end_before in *; simpl in *.
      exact IH.
Qed.

Section Spans.
Variable inp : Input.
Hypothesis Hord : ordered inp.

Lemma tok_start_mono i j : i <= j -> tok_start inp i <= tok_start inp j.
Proof.
  induction 1 as [|j _ IH]; [lia|].
  destruct (Hord j); lia.
Qed.

Lemma tok_end_before_step j : tok_end_before inp j <= tok_end_before inp (S j).
Proof.
  destruct j as [|k].
  - unfold tok_end_before; simpl; lia.
  - destruct (Hord k), (Hord (S k)); lia.
Qed.

Lemma tok_end_before_mono i j : i <= j -> tok_end_before inp i <= tok_end_before inp j.
Proof.
  induction 1 as [|j _ IH]; [lia|].
  pose proof (tok_end_before_step j); lia.
Qed.

Lemma start_le_end_before i j : i < j -> tok_start inp i <= tok_end_before inp j.
Proof.
  intros Hij. destruct (Hord i) as [H _].
  pose proof (tok_end_before_mono (S i) j Hij); lia.
Qed.

Lemma span_within_refl sp : span_within sp sp = true.
Proof. unfold span_within; now rewrite !Nat.leb_refl. Qed.

Lemma span_within_widen sp i j i' j' :
  i' <= i -> j <= j' ->
  span_within sp (span inp i j) = true -> span_within sp (span inp i' j') = true.
Proof.
  unfold span_within, span; simpl. intros Hi Hj H.
  apply andb_prop in H as [H1 H2]; apply Nat.leb_le in H1; apply Nat.leb_le in H2.
  pose proof (tok_start_mono _ _ Hi); pose proof (tok_end_before_mono _ _ Hj).
  apply andb_true_intro; split; apply Nat.leb_le; lia.
Qed.
End Spans.

Section Invariant.
Variable inp : Input.
Hypothesis Hord : ordered inp.


Lemma within_range_widen i j i' j' s :
  i' <= i -> j <= j' -> within_range inp i j s -> within_range inp i' j' s.
Proof.
  intros Hi Hj [H1 H2]; split; auto.
  eapply span_within_widen; eauto.
Qed.

Lemma repeated_go_le {A} (p : Parser A) :
  (forall off a x o a', p off a = POk x o a' -> off <= o) ->
  forall fuel off a acc xs o al,
    repeated_go p fuel off a acc = (xs, o, al) -> off <= o.
Proof.
  intros Hp fuel; induction fuel as [|f IH]; intros off a acc xs o al H; simpl in H.
  - injection H; lia.
  - destruct (p off a) as [x o1 a1|e] eqn:E.
    + apply Hp in E. apply IH in H. lia.
    + injection H; lia.
Qed.

Lemma at_least_le {A} n (p : Parser A) off a xs o al :
  (forall off a x o a', p off a = POk x o a' -> off <= o) ->
  at_least inp n p off a = POk xs o al -> off <= o.
Proof.
  intros Hp. unfold at_least.
  destruct (repeated_go p _ off a []) as [[ys o1] a1] eqn:E.
  destruct (Nat.leb n (List.length ys)); [|discriminate].
  intros H; injection H as <- <- <-. eapply repeated_go_le; eauto.
Qed.

Lemma repeated_go_ok (p : Parser Sexpr) :
  ok_prop inp p ->
  forall fuel off a acc xs o al lo,
    repeated_go p fuel off a acc = (xs, o, al) ->
    lo <= off -> (acc <> [] -> lo < off) -> Forall (within_range inp lo off) acc ->
    lo <= o /\ (xs <> [] -> lo < o) /\ Forall (within_range inp lo o) xs.
Proof.
  intros Hp fuel; induction fuel as [|f IH];
    intros off a acc xs o al lo H Hlo Hne Hall; simpl in H.
  - injection H as <- <- <-. repeat split; auto.
    + intros Hr; apply Hne; intros ->; apply Hr; reflexivity.
    + apply Forall_rev; auto.
  - destruct (p off a) as [x o1 a1|e] eqn:E.
    + apply Hp in E as [Hlt Hx].
      apply (IH _ _ _ _ _ _ lo H); [lia | intros _; lia |].
      constructor.
      * eapply within_range_widen; [| |exact Hx]; lia.
      * eapply Forall_impl; [|exact Hall].
        intros s; apply within_range_widen; lia.
    + injection H as <- <- <-. repeat split; auto.
      * intros Hr; apply Hne; intros ->; apply Hr; reflexivity.
      * apply Forall_rev; auto.
Qed.

Lemma at_least_ok n (p : Parser Sexpr) off a xs o al :
  ok_prop inp p -> at_least inp n p off a = POk xs o al ->
  n <= List.length xs /\ off <= o /\ (xs <> [] -> off < o)
  /\ Forall (within_range inp off o) xs.
Proof.
  intros Hp. unfold at_least.
  destruct (repeated_go p _ off a []) as [[ys o1] a1] eqn:E.
  destruct (Nat.leb n (List.length ys)) eqn:Hn; [|discriminate].
  intros H; injection H as <- <- <-.
  apply Nat.leb_le in Hn.
  destruct (repeated_go_ok p Hp _ _ _ _ _ _ _ off E) as [H1 [H2 H3]]; auto.
  intros []; reflexivity.
Qed.

Lemma or_ok (p q : Parser Sexpr) : ok_prop inp p -> ok_prop inp q -> ok_prop inp (or_ p q).
Proof.
  intros Hp Hq off a x o a' H.
  apply or_inv in H as [[a'' H]|[e [a'' H]]]; eauto.
Qed.

Lemma nested_children i j xs :
  Forall (within_range inp i j) xs ->
  forallb (fun c => span_within (sexpr_span c) (span inp i j) && spans_nested c) xs
  = true.
Proof.
  intros H; apply forallb_forall; intros c Hc.
  rewrite Forall_forall in H; destruct (H c Hc) as [-> ->]; reflexivity.
Qed.
Lemma quote_form_ok f tok name :
  ok_prop inp (sexpr_reader inp f) -> ok_prop inp (quote_form inp (sexpr_reader inp f) tok name).
Proof.
  intros IH off a x o a' H. unfold quote_form in H.
  apply map_with_span_inv in H as [k [H ->]].
  apply pmap_inv in H as [[sp s] [H ->]].
  apply then_inv in H as [o1 [a1 [H1 H2]]]; simpl in *.
  apply map_with_span_inv in H1 as [t [H1 ->]].
  apply just_inv in H1 as [-> _].
  apply IH in H2 as [Hlt [Hs1 Hs2]].
  split; [lia|]. split; simpl; [apply span_within_refl|].
  rewrite span_within_refl; simpl.
  assert (Hw : span_within (span inp off (S off)) (span inp off o) = true)
    by (eapply span_within_widen; [exact Hord| | |apply span_within_refl]; lia).
  rewrite Hw; simpl.
  assert (Hw' : span_within (sexpr_span s) (span inp off o) = true)
    by (eapply span_within_widen; [exact Hord| | |exact Hs1]; lia).
  now rewrite Hw', Hs2.
Qed.

Lemma sexpr_reader_ok f : ok_prop inp (sexpr_reader inp f).
Proof.
  induction f as [|f IH].
  { intros off a x o a' H; discriminate. }
  cbn [sexpr_reader].
  repeat apply or_ok; try (apply quote_form_ok; exact IH);
    intros off a x o a' H.
  - (* variadic *)
    apply map_with_span_inv in H as [k [H ->]].
    apply map_with_span_inv in H as [name [H ->]].
    unfold then_ignore in H. apply pmap_inv in H as [[n e] [H Heq]].
    simpl in Heq; subst n.
    apply then_inv in H as [o1 [a1 [H1 H2]]]; simpl in *.
    apply select_inv in H1 as [-> _]. apply just_inv in H2 as [-> _].
    split; [lia|]. unfold within_range; simpl.
    now rewrite !span_within_refl.
  - (* list *)
    apply delimited_by_inv in H as [b [c [o1 [o2 [a1 [a2 [a3 [Hl [Hp Hr]]]]]]]]].
    apply just_inv in Hl as [-> _]. apply just_inv in Hr as [-> _].
    apply map_with_span_inv in Hp as [k [Hp ->]].
    apply pmap_inv in Hp as [xs [Hp ->]].
    apply at_least_ok in Hp as [Hn [Hle [Hne Hall]]]; [|exact IH].
    assert (Hxs : xs <> []) by (destruct xs; simpl in Hn; [lia|discriminate]).
    specialize (Hne Hxs).
    split; [lia|]. split; simpl.
    + eapply span_within_widen; [exact Hord| | |apply span_within_refl]; lia.
    + apply nested_children; exact Hall.
  - (* list_lit *)
    apply delimited_by_inv in H as [b [c [o1 [o2 [a1 [a2 [a3 [Hl [Hp Hr]]]]]]]]].
    apply just_inv in Hl as [-> _]. apply just_inv in Hr as [-> _].
    apply map_with_span_inv in Hp as [k [Hp ->]].
    apply map_with_span_inv in Hp as [xs [Hp ->]].
    apply at_least_ok in Hp as [Hn [Hle [Hne Hall]]]; [|exact IH].
    assert (Hxs : xs <> []) by (destruct xs; simpl in Hn; [lia|discriminate]).
    specialize (Hne Hxs).
    split; [lia|]. split; simpl.
    + eapply span_within_widen; [exact Hord| | |apply span_within_refl]; lia.
    + rewrite span_within_refl; simpl.
      assert (Hhead : span_within
                (mkSpan (tok_start inp (S off)) (tok_start inp (S off)))
                (span inp (S off) o2) = true).
      { unfold span_within, span; simpl.
        rewrite Nat.leb_refl; simpl. apply Nat.leb_le.
        apply start_le_end_before; [exact Hord|lia]. }
      rewrite Hhead; simpl. apply nested_children; exact Hall.
  - (* vector *)
    apply delimited_by_inv in H as [b [c [o1 [o2 [a1 [a2 [a3 [Hl [Hp Hr]]]]]]]]].
    apply just_inv in Hl as [-> _]. apply just_inv in Hr as [-> _].
    apply map_with_span_inv in Hp as [k [Hp ->]].
    apply pmap_inv in Hp as [xs [Hp ->]].
    apply at_least_ok in Hp as [Hn [Hle [Hne Hall]]]; [|exact IH].
    split; [lia|]. split; simpl.
    + eapply span_within_widen; [exact Hord| | |apply span_within_refl]; lia.
    + apply nested_children; exact Hall.
  - (* atom *)
    apply map_with_span_inv in H as [k [H ->]].
    apply pmap_inv in H as [at_ [H ->]].
    apply map_with_span_inv in H as [ak [H ->]].
    assert (Hadv : off < o).
    { apply or_inv in H as [[a'' H]|[e [a'' H]]].
      - apply or_inv in H as [[a3 H]|[e [a3 H]]].
        + apply pmap_inv in H as [v [H _]]. apply pmap_inv in H as [w [H _]].
          apply then_inv in H as [o1 [a1 [H1 H2]]].
          apply select_inv in H1 as [-> _].
          apply at_least_le in H2; [lia|].
          intros off' b y o' b' Hy. unfold ignore_then in Hy.
          apply pmap_inv in Hy as [z [Hy _]].
          apply then_inv in Hy as [o3 [b3 [Hy1 Hy2]]].
          apply just_inv in Hy1 as [-> _]. apply select_inv in Hy2 as [-> _]. lia.
        + apply pmap_inv in H as [v [H _]]. apply select_inv in H as [-> _]. lia.
      - apply pmap_inv in H as [v [H _]]. apply select_inv in H as [-> _]. lia. }
    split; [exact Hadv|]. split; simpl; apply span_within_refl.
Qed.
End Invariant.

(** * Running single productions *)

Ltac run_tokens :=
  repeat (match goal with
          | H : nth_error (toks ?i) ?k = _ |- context [nth_error (toks ?i) ?k] =>
              rewrite H
          end; cbn -[nth_error]).

Section Productions.
Variable inp : Input.

Lemma sexpr_at_eoi f off a :
  nth_error (toks inp) off = None -> exists e, sexpr_reader inp f off a = PErr e.
Proof.
  intros H. destruct f as [|f]; [eexists; reflexivity|].
  cbn [sexpr_reader]. unfold_grammar. run_tokens. eauto.
Qed.

Lemma token_span_self off t s :
  nth_error (toks inp) off = Some (t, s) -> span inp off (S off) = s.
Proof.
  intros H. unfold span, tok_start, tok_end_before; simpl.
  rewrite H. destruct s; reflexivity.
Qed.
End Productions.

(** * Dotted paths *)

Lemma skipn_cons_nth {A} (l : list A) n x rest :
  skipn n l = x :: rest -> nth_error l n = Some x /\ skipn (S n) l = rest.
Proof.
  revert l; induction n as [|n IH]; intros [|y l] H; simpl in *; try discriminate.
  - injection H as -> ->. destruct rest; auto.
  - apply IH; exact H.
Qed.

Lemma skipn_nil_nth {A} (l : list A) n : skipn n l = [] -> nth_error l n = None.
Proof.
  revert l; induction n as [|n IH]; intros [|y l] H; simpl in *; auto; discriminate.
Qed.

Lemma path_pairs_length ys : List.length (path_pairs ys) = 2 * List.length ys.
Proof.
  unfold path_pairs.
  induction ys as [|[[y sp] sy] ys IH]; [reflexivity|].
  cbn [flat_map]. rewrite length_app, IH. simpl. lia.
Qed.

Lemma lexed_of_no_errors l : lex_errors (lexed_of l) = [].
Proof. induction l as [|[t s] l IH]; simpl; auto. Qed.

Lemma lexed_of_tokens l :
  map (fun '(r, sp) => (match r with Some t => t | None => Token.Error end, sp))
    (lexed_of l) = l.
Proof. induction l as [|[t s] l IH]; simpl; f_equal; auto. Qed.

Section Paths.
Variable inp : Input.

Lemma pair_step off a y sp sy :
  nth_error (toks inp) off = Some (Token.Period, sp) ->
  nth_error (toks inp) (S off) = Some (Token.Ident y, sy) ->
  ignore_then (just inp Token.Period) (ident_reader inp) off a = POk y (S (S off)) a.
Proof. intros H1 H2. unfold_grammar. run_tokens. reflexivity. Qed.

Lemma pair_at_eoi off a :
  nth_error (toks inp) off = None ->
  exists e, ignore_then (just inp Token.Period) (ident_reader inp) off a = PErr e.
Proof. intros H. unfold_grammar. run_tokens. eauto. Qed.

Lemma path_pairs_go ys :
  forall off fuel a acc,
    List.length ys < fuel -> skipn off (toks inp) = path_pairs ys ->
    exists al,
      repeated_go (ignore_then (just inp Token.Period) (ident_reader inp)) fuel off a acc
      = (app (rev acc) (path_names ys), off + 2 * List.length ys, al).
Proof.
  induction ys as [|[[y sp] sy] ys IH]; intros off fuel a acc Hf Hs;
    (destruct fuel as [|f]; [simpl in Hf; lia|]).
  - apply skipn_nil_nth in Hs.
    cbn [repeated_go]. destruct (pair_at_eoi off a Hs) as [e ->].
    rewrite app_nil_r, Nat.add_0_r. eauto.
  - simpl in Hs. apply skipn_cons_nth in Hs as [H1 Hs].
    apply skipn_cons_nth in Hs as [H2 Hs].
    cbn [repeated_go]. rewrite (pair_step off a y sp sy H1 H2).
    destruct (IH (S (S off)) f a (y :: acc)) as [al E]; [simpl in Hf; lia|exact Hs|].
    rewrite E. exists al. simpl. rewrite <- app_assoc.
    do 2 f_equal. lia.
Qed.

Lemma path_atom_reads f x s0 ys a :
  toks inp = (Token.Ident x, s0) :: path_pairs ys -> ys <> [] ->
  exists al,
    sexpr_reader inp (S f) 0 a =
    POk (Sexpr_new
           (SexprKind_Atom
              (Atom_new (AtomKind.Path (x :: path_names ys))
                 (span inp 0 (S (2 * List.length ys)))))
           (span inp 0 (S (2 * List.length ys))))
        (S (2 * List.length ys)) al.
Proof.
  intros Ht Hne.
  destruct ys as [|[[y sp] sy] ys']; [congruence|].
  assert (H0 : nth_error (toks inp) 0 = Some (Token.Ident x, s0)) by (rewrite Ht; reflexivity).
  assert (H1 : nth_error (toks inp) 1 = Some (Token.Period, sp)) by (rewrite Ht; reflexivity).
  assert (Hpairs : forall b, exists al,
    at_least inp 1 (ignore_then (just inp Token.Period) (ident_reader inp)) 1 b
    = POk (path_names ((y, sp, sy) :: ys')) (S (2 * List.length ((y, sp, sy) :: ys'))) al).
  { intros b. unfold at_least.
    destruct (path_pairs_go ((y, sp, sy) :: ys') 1 (S (List.length (toks inp))) b [])
      as [al E].
    - rewrite Ht. simpl List.length at 2. rewrite path_pairs_length. simpl. lia.
    - rewrite Ht. reflexivity.
    - rewrite E. exists al. reflexivity. }
  remember (at_least inp 1 (ignore_then (just inp Token.Period) (ident_reader inp)))
    as pairs eqn:Hp.
  cbn [sexpr_reader]. rewrite <- Hp. unfold_grammar. run_tokens.
  match goal with |- context [pairs 1 ?b] => destruct (Hpairs b) as [al ->] end.
  cbn. eexists; reflexivity.
Qed.
End Paths.

(** * Whole reads *)

Lemma read_lexed_parsed lexed len r errs :
  read_lexed lexed len = (Some r, errs) ->
  exists inp xs o1 a1 a2,
    toks inp = map (fun '(r, sp) => (match r with Some t => t | None => Token.Error end, sp))
                 lexed
    /\ eoi inp = mkSpan len len
    /\ repeated inp (sexpr_reader inp (S (List.length (toks inp)))) 0 None = POk xs o1 a1
    /\ end_ inp o1 a1 = POk tt o1 a2
    /\ r = Root_new xs (span inp 0 o1) /\ errs = [].
Proof.
  unfold read_lexed. cbv zeta.
  destruct (lex_errors lexed) as [|e es]; [|discriminate].
  match goal with |- context [then_ignore _ _ 0 None] =>
    destruct (then_ignore _ _ 0 None) as [root o a|e] eqn:E end; [|discriminate].
  intros H; injection H as <- <-.
  unfold then_ignore in E. apply pmap_inv in E as [[root' u] [E Hr]]; simpl in Hr; subst root'.
  apply then_inv in E as [o1 [a1 [E1 E2]]]; simpl in *.
  unfold root_reader in E1. apply map_with_span_inv in E1 as [xs [E1 ->]].
  destruct u. assert (Hend := E2). unfold end_ in E2.
  destruct (Nat.leb _ o1) eqn:Hle; [|discriminate]. injection E2 as <- <-.
  eexists (Input_new _ _), xs, o1, a1, a1. simpl. repeat split; auto.
Qed.

Lemma path_read x s0 ys len :
  ys <> [] ->
  exists sp rsp,
    read_lexed (lexed_of ((Token.Ident x, s0) :: path_pairs ys)) len =
    (Some (Root_new
             [Sexpr_new
                (SexprKind_Atom (Atom_new (AtomKind.Path (x :: path_names ys)) sp)) sp]
             rsp), []).
Proof.
  intros Hne. unfold read_lexed. cbv zeta.
  rewrite lexed_of_no_errors, lexed_of_tokens.
  set (inp := Input_new ((Token.Ident x, s0) :: path_pairs ys) (mkSpan len len)).
  assert (Hlen : List.length (toks inp) = S (2 * List.length ys))
    by (simpl; rewrite path_pairs_length; reflexivity).
  assert (Heoi : nth_error (toks inp) (S (2 * List.length ys)) = None)
    by (apply nth_error_None; lia).
  destruct (path_atom_reads inp (S (2 * List.length ys)) x s0 ys None eq_refl Hne)
    as [al Hatom].
  destruct (sexpr_at_eoi inp (S (S (2 * List.length ys))) (S (2 * List.length ys)) al Heoi)
    as [e Heof].
  unfold then_ignore, root_reader, repeated, at_least, pmap, then_, map_with_span.
  change (List.length ((Token.Ident x, s0) :: path_pairs ys)) with (List.length (toks inp)).
  rewrite Hlen.
  cbn [repeated_go]. rewrite Hatom. cbn [repeated_go]. rewrite Heof.
  cbn -[end_]. unfold end_. rewrite Hlen, Nat.leb_refl.
  eexists _, _; reflexivity.
Qed.

(** * Every '.' belongs to a path *)

Section Periods.
Variable inp : Input.

Lemma periods_named_refl off : periods_named inp off off.
Proof. intros k H1 H2; lia. Qed.

Lemma periods_named_trans i j l :
  i <= j -> j <= l -> periods_named inp i j -> periods_named inp j l ->
  periods_named inp i l.
Proof.
  intros Hij Hjl H1 H2 k Hk1 Hk2 Hk.
  destruct (Nat.lt_ge_cases k j) as [Hlt|Hge].
  - destruct (H1 k Hk1 Hlt Hk) as [Hs Hy]. split; [lia|exact Hy].
  - exact (H2 k Hge Hk2 Hk).
Qed.

Lemma select_periods_ok {A} (g : Token.t -> option A) :
  g Token.Period = None -> periods_ok inp (select inp g).
Proof.
  intros Hg off a x o a' H. apply select_inv in H as [-> [t [Ht Hgt]]].
  split; [lia|]. intros k Hk1 Hk2 Hk.
  assert (k = off) as -> by lia. rewrite Ht in Hk. injection Hk as ->. congruence.
Qed.

Lemma just_periods_ok t : t <> Token.Period -> periods_ok inp (just inp t).
Proof.
  intros Ht. apply select_periods_ok.
  destruct (Token.eq_dec t Token.Period); [contradiction|reflexivity].
Qed.

Lemma pmap_periods_ok {A B} (g : A -> B) p :
  periods_ok inp p -> periods_ok inp (pmap g p).
Proof. intros Hp off a y o a' H. apply pmap_inv in H as [x [H _]]. eapply Hp; eauto. Qed.

Lemma map_with_span_periods_ok {A B} (g : A -> Span -> B) p :
  periods_ok inp p -> periods_ok inp (map_with_span inp g p).
Proof.
  intros Hp off a y o a' H. apply map_with_span_inv in H as [x [H _]]. eapply Hp; eauto.
Qed.

Lemma then_periods_ok {A B} (p : Parser A) (q : Parser B) :
  periods_ok inp p -> periods_ok inp q -> periods_ok inp (then_ p q).
Proof.
  intros Hp Hq off a z o a' H. apply then_inv in H as [o1 [a1 [H1 H2]]].
  apply Hp in H1 as [Hle1 Hn1]. apply Hq in H2 as [Hle2 Hn2].
  split; [lia|]. eapply periods_named_trans; eauto.
Qed.

Lemma then_ignore_periods_ok {A B} (p : Parser A) (q : Parser B) :
  periods_ok inp p -> periods_ok inp q -> periods_ok inp (then_ignore p q).
Proof. intros Hp Hq. apply pmap_periods_ok, then_periods_ok; assumption. Qed.

Lemma delimited_by_periods_ok {A B C} (p : Parser A) (l : Parser B) (r : Parser C) :
  periods_ok inp p -> periods_ok inp l -> periods_ok inp r ->
  periods_ok inp (delimited_by p l r).
Proof.
  intros Hp Hl Hr. unfold delimited_by, ignore_then.
  apply then_ignore_periods_ok; [|exact Hr].
  apply pmap_periods_ok, then_periods_ok; assumption.
Qed.

Lemma or_periods_ok {A} (p q : Parser A) :
  periods_ok inp p -> periods_ok inp q -> periods_ok inp (or_ p q).
Proof.
  intros Hp Hq off a x o a' H.
  apply or_inv in H as [[a'' H]|[e [a'' H]]]; eauto.
Qed.

Lemma repeated_go_periods_ok {A} (p : Parser A) :
  periods_ok inp p ->
  forall fuel off a acc xs o al,
    repeated_go p fuel off a acc = (xs, o, al) -> off <= o /\ periods_named inp off o.
Proof.
  intros Hp fuel; induction fuel as [|f IH]; intros off a acc xs o al H; simpl in H.
  - injection H as _ <- _. split; [lia|apply periods_named_refl].
  - destruct (p off a) as [x o1 a1|e] eqn:E.
    + apply Hp in E as [Hle1 Hn1]. apply IH in H as [Hle2 Hn2].
      split; [lia|]. eapply periods_named_trans; eauto.
    + injection H as _ <- _. split; [lia|apply periods_named_refl].
Qed.

Lemma at_least_periods_ok {A} n (p : Parser A) :
  periods_ok inp p -> periods_ok inp (at_least inp n p).
Proof.
  intros Hp off a xs o al. unfold at_least.
  destruct (repeated_go p _ off a []) as [[ys o1] a1] eqn:E.
  destruct (Nat.leb n (List.length ys)); [|discriminate].
  intros H; injection H as <- <- <-. eapply repeated_go_periods_ok; eauto.
Qed.

(** the one place the grammar takes a '.': a ". name" pair of a path *)
Lemma period_pair_periods_ok :
  periods_ok inp (ignore_then (just inp Token.Period) (ident_reader inp)).
Proof.
  intros off a y o a' H. unfold ignore_then in H. apply pmap_inv in H as [z [H _]].
  apply then_inv in H as [o1 [a1 [H1 H2]]].
  apply just_inv in H1 as [-> H1]. apply select_inv in H2 as [-> [t [Ht Hg]]].
  split; [lia|]. intros k Hk1 Hk2 Hk.
  destruct (Nat.eq_dec k off) as [->|Hne].
  - split; [lia|]. destruct t; try discriminate. eauto.
  - assert (k = S off) as -> by lia. rewrite Ht in Hk. injection Hk as ->. discriminate.
Qed.

Lemma sexpr_reader_periods_ok f : periods_ok inp (sexpr_reader inp f).
Proof.
  induction f as [|f IH].
  { intros off a x o a' H; discriminate. }
  cbn [sexpr_reader]. unfold quote_form, repeated.
  repeat first
    [ apply period_pair_periods_ok
    | apply or_periods_ok
    | apply delimited_by_periods_ok
    | apply then_ignore_periods_ok
    | apply map_with_span_periods_ok
    | apply pmap_periods_ok
    | apply then_periods_ok
    | apply at_least_periods_ok
    | apply just_periods_ok; discriminate
    | apply select_periods_ok; reflexivity
    | exact IH ].
Qed.
End Periods.

(** * The claims *)

(** ** Bracketed literals *)

(** C1 (counterexample): [read "[1 2 3]"] does not give the three literals
    alone under a tag of their own: it gives the [List] tag of a code list,
    with a [list] symbol put in front of 1, 2 and 3. *)
Lemma bracket_literal_prepends_list :
  read_shape "[1 2 3]" = Some [list0 [sym0 "list"; int0 1; int0 2; int0 3]]
  /\ read_shape "(list 1 2 3)" = read_shape "[1 2 3]"
  /\ snd (read "[1 2 3]") = [].
Proof. split; [|split]; vm_compute; reflexivity. Qed.

(** C1 (amended): when '[' is followed by one or more sexprs [l] and then
    ']', the reader builds a [List] node (the tag of a parenthesised code
    list) whose children are a synthesized [list] symbol, with a zero-width
    atom span at the start of the first child, followed by [l] in order. *)
Theorem list_lit_reads_list_call inp f off alt sb l o a1 a1' sr :
  nth_error (toks inp) off = Some (Token.LBrack, sb) ->
  repeated inp (sexpr_reader inp f) (S off) a1 = POk l o a1' ->
  l <> [] ->
  nth_error (toks inp) o = Some (Token.RBrack, sr) ->
  exists al, sexpr_reader inp (S f) off alt =
    POk (Sexpr_new
           (SexprKind_List
              (sym_sexpr "list" (mkSpan (tok_start inp (S off)) (tok_start inp (S off)))
                 (span inp (S off) o) :: l))
           (span inp (S off) o))
        (S o) al.
Proof.
  intros Hl Hr Hne Hrb.
  apply repeated_at_least1 in Hr; [|exact Hne].
  pose proof (at_least_any_alt inp 1 (sexpr_reader inp f) (S off) a1 l o a1'
                (sexpr_reader_alt_indep inp f) Hr) as Hany.
  cbn [sexpr_reader]. unfold_grammar. run_tokens.
  match goal with |- context [at_least inp 1 (sexpr_reader inp f) (S off) ?b] =>
    destruct (Hany b) as [b' ->] end.
  run_tokens. eexists; reflexivity.
Qed.

Lemma list_lit_reads_list_call_witness :
  repeated (read_input "[1 2 3]") (sexpr_reader (read_input "[1 2 3]") 5) 1 None
  = POk [int_at 1 (mkSpan 1 2); int_at 2 (mkSpan 3 4); int_at 3 (mkSpan 5 6)] 4 (Some 4)
  /\ exists al, sexpr_reader (read_input "[1 2 3]") 6 0 None =
       POk (Sexpr_new
              (SexprKind_List
                 [sym_sexpr "list" (mkSpan 1 1) (mkSpan 1 6);
                  int_at 1 (mkSpan 1 2); int_at 2 (mkSpan 3 4); int_at 3 (mkSpan 5 6)])
              (mkSpan 1 6))
           5 al.
Proof.
  assert (H : repeated (read_input "[1 2 3]") (sexpr_reader (read_input "[1 2 3]") 5) 1 None
              = POk [int_at 1 (mkSpan 1 2); int_at 2 (mkSpan 3 4); int_at 3 (mkSpan 5 6)]
                  4 (Some 4))
    by (vm_compute; reflexivity).
  split; [exact H|].
  refine (list_lit_reads_list_call (read_input "[1 2 3]") 5 0 None (mkSpan 0 1) _ 4 None
            (Some 4) (mkSpan 6 7) _ H _ _).
  - vm_compute; reflexivity.
  - discriminate.
  - vm_compute; reflexivity.
Defined.

(** ** Error handling *)




(** C3: when the lexer reports at least one fault, [read] returns no tree
    and exactly one LexError per faulty range, in order, and nothing else. *)
Theorem lex_fault_aborts lexed len :
  err_spans lexed <> [] ->
  read_lexed lexed len = (None, map LexError (err_spans lexed)).
Proof.
  intros H. unfold read_lexed. cbv zeta. rewrite lex_errors_err_spans.
  destruct (err_spans lexed) as [|s l]; [congruence|reflexivity].
Qed.

Lemma lex_fault_aborts_witness :
  err_spans (lex "@ x @") = [mkSpan 0 1; mkSpan 4 5]
  /\ read "@ x @" = (None, [LexError (mkSpan 0 1); LexError (mkSpan 4 5)]).
Proof.
  assert (H : err_spans (lex "@ x @") = [mkSpan 0 1; mkSpan 4 5])
    by (vm_compute; reflexivity).
  split; [exact H|].
  unfold read.
  rewrite (lex_fault_aborts (lex "@ x @") (String.length "@ x @"))
    by (rewrite H; discriminate).
  rewrite H. reflexivity.
Defined.

(** ** Vector literals *)

(** C4: "#[1 2 3]" is read with the same [List] tag as "(1 2 3)" and as
    "[1 2 3]"; no node of a separate vector tag is built. *)
Theorem vector_literal_reads_as_list :
  read_shape "#[1 2 3]" = Some [list0 [int0 1; int0 2; int0 3]]
  /\ read_shape "(1 2 3)" = read_shape "#[1 2 3]"
  /\ read_shape "[1 2 3]" = Some [list0 [sym0 "list"; int0 1; int0 2; int0 3]].
Proof. split; [|split]; vm_compute; reflexivity. Qed.

(** C5: "#[]" reads to one node with no children and no error, while "()"
    gives no tree and a ParseError. *)
Theorem empty_vector_ok_empty_list_rejected :
  read_shape "#[]" = Some [list0 []] /\ snd (read "#[]") = []
  /\ fst (read "()") = None /\ (exists sp, snd (read "()") = [ParseError sp]).
Proof.
  split; [vm_compute; reflexivity|].
  split; [vm_compute; reflexivity|].
  split; [vm_compute; reflexivity|].
  exists (mkSpan 1 2). vm_compute. reflexivity.
Qed.

(** ** Spans *)

(** C6 (failing input): in "(1)" the list node's span is [1,2), the span of
    its child: the list production takes its span inside [delimited_by], so
    it does not contain the span [0,1) of the opening parenthesis. *)
Lemma list_span_excludes_parens :
  read "(1)" = (Some (Root_new [Sexpr_new (SexprKind_List [int_at 1 (mkSpan 1 2)])
                                  (mkSpan 1 2)]
                      (mkSpan 0 3)), [])
  /\ nth_error (lex "(1)") 0 = Some (Some Token.LParen, mkSpan 0 1)
  /\ span_within (mkSpan 0 1) (mkSpan 1 2) = false.
Proof. split; [|split]; vm_compute; reflexivity. Qed.

(** ** Quote family *)

(** C7 (counterexample): in "'x" the synthetic [quote] head atom carries
    the span [0,1) of the quote mark itself, not the zero-width span [0,0). *)
Lemma quote_head_has_marker_span :
  read "'x" = (Some (Root_new
                       [Sexpr_new
                          (SexprKind_List [sym_sexpr "quote" (mkSpan 0 1) (mkSpan 0 1);
                                           sym_sexpr "x" (mkSpan 1 2) (mkSpan 1 2)])
                          (mkSpan 0 2)]
                       (mkSpan 0 2)), [])
  /\ mkSpan 0 1 <> mkSpan 0 0.
Proof. split; [vm_compute; reflexivity | discriminate]. Qed.

(** C7 (amended): for each quote-family marker (quote, quasiquote, unquote,
    unquote-splicing) followed by a sexpr [s], the reader builds a two-element
    [List] node whose head symbol, atom and node alike, carries the marker
    token's own span [sm], and whose span runs from the marker's start to the
    end of the last token of [s]. *)
Theorem quote_family_spans inp f off alt m name sm s o a1 a1' :
  In (m, name) quote_markers ->
  nth_error (toks inp) off = Some (m, sm) ->
  sexpr_reader inp f (S off) a1 = POk s o a1' ->
  exists al, sexpr_reader inp (S f) off alt =
    POk (Sexpr_new (SexprKind_List [sym_sexpr name sm sm; s])
           (mkSpan (sp_start sm) (tok_end_before inp o)))
        o al.
Proof.
  intros Hm H1 Hs.
  pose proof (sexpr_any_alt inp f (S off) a1 s o a1' Hs) as Hany.
  assert (Hsp : span inp off (S off) = sm) by (eapply token_span_self; eauto).
  assert (Hsp' : span inp off o = mkSpan (sp_start sm) (tok_end_before inp o))
    by (unfold span, tok_start; rewrite H1; reflexivity).
  rewrite <- Hsp', <- Hsp.
  cbn [sexpr_reader]. unfold_grammar.
  simpl in Hm; destruct Hm as [E|[E|[E|[E|[]]]]]; injection E as <- <-;
    run_tokens;
    match goal with |- context [sexpr_reader inp f (S off) ?b] =>
      destruct (Hany b) as [b' ->] end;
    cbn; eexists; reflexivity.
Qed.

Lemma quote_family_spans_witness :
  sexpr_reader (read_input ",@x") 1 1 None
  = POk (sym_sexpr "x" (mkSpan 2 3) (mkSpan 2 3)) 2 (Some 2)
  /\ exists al, sexpr_reader (read_input ",@x") 2 0 None =
       POk (Sexpr_new (SexprKind_List [sym_sexpr "unquote-splicing" (mkSpan 0 2) (mkSpan 0 2);
                                       sym_sexpr "x" (mkSpan 2 3) (mkSpan 2 3)])
              (mkSpan 0 3))
           2 al.
Proof.
  assert (H : sexpr_reader (read_input ",@x") 1 1 None
              = POk (sym_sexpr "x" (mkSpan 2 3) (mkSpan 2 3)) 2 (Some 2))
    by (vm_compute; reflexivity).
  split; [exact H|].
  refine (quote_family_spans (read_input ",@x") 1 0 None Token.CommaAt "unquote-splicing"
            (mkSpan 0 2) _ 2 None (Some 2) _ _ H).
  - simpl; auto.
  - vm_compute; reflexivity.
Defined.

(** C9: "'x" and "(quote x)" read to the same tree once spans are erased: one
    top-level two-element list of the symbols quote and x, with no error. *)
Theorem quote_sugar_matches_quote_list :
  read_shape "'x" = read_shape "(quote x)"
  /\ read_shape "'x" = Some [list0 [sym0 "quote"; sym0 "x"]]
  /\ snd (read "'x") = [] /\ snd (read "(quote x)") = [].
Proof. split; [|split; [|split]]; vm_compute; reflexivity. Qed.

(** ** Variadic sugar *)

(** C8: an identifier followed by an ellipsis is read as the two-element
    list (varg name), both symbols spanning the two tokens, before atoms are
    tried; an identifier not followed by an ellipsis is read as an atom, a
    bare symbol unless a '.' follows (then a path starting with it), never as
    the desugared list. *)
Theorem variadic_before_atom inp f off alt x sx :
  nth_error (toks inp) off = Some (Token.Ident x, sx) ->
  (tok_at inp (S off) = Some Token.Ellipsis ->
   exists al, sexpr_reader inp (S f) off alt =
     POk (Sexpr_new
            (SexprKind_List
               [sym_sexpr "varg" (span inp off (S (S off))) (span inp off (S (S off)));
                sym_sexpr x (span inp off (S (S off))) (span inp off (S (S off)))])
            (span inp off (S (S off))))
         (S (S off)) al)
  /\ (tok_at inp (S off) <> Some Token.Ellipsis ->
      exists a o al,
        sexpr_reader inp (S f) off alt = POk (Sexpr_new (SexprKind_Atom a) (span inp off o)) o al
        /\ (atom_kind a = AtomKind.Sym x \/ exists rest, atom_kind a = AtomKind.Path (x :: rest))
        /\ (tok_at inp (S off) <> Some Token.Period -> atom_kind a = AtomKind.Sym x /\ o = S off)).
Proof.
  intros H1. split.
  - intros H2. unfold tok_at in H2.
    destruct (nth_error (toks inp) (S off)) as [[t se]|] eqn:H3; [|discriminate].
    simpl in H2; injection H2 as ->.
    cbn [sexpr_reader]. unfold_grammar. run_tokens. eexists; reflexivity.
  - intros H2.
    remember (at_least inp 1 (ignore_then (just inp Token.Period) (ident_reader inp)))
      as pairs eqn:Hpairs.
    assert (Hno : forall b rhs o al, pairs (S off) b = POk rhs o al ->
                  tok_at inp (S off) = Some Token.Period).
    { intros b rhs o al Hp. subst pairs. unfold at_least in Hp.
      destruct (repeated_go _ _ (S off) b []) as [[ys o1] a3] eqn:E.
      destruct ys as [|y ys]; [discriminate|].
      destruct (S (List.length (toks inp))) as [|fu]; [discriminate|].
      simpl in E. unfold ignore_then, then_, pmap, just, select in E.
      destruct (tok_at inp (S off)) as [t|]; [|discriminate].
      destruct (Token.eq_dec Token.Period t) as [<-|]; [reflexivity|discriminate]. }
    cbn [sexpr_reader]. rewrite <- Hpairs. unfold_grammar.
    assert (Hp3 : forall t se, nth_error (toks inp) (S off) = Some (t, se) ->
                  tok_at inp (S off) = Some t)
      by (intros t se E; unfold tok_at; rewrite E; reflexivity).
    destruct (nth_error (toks inp) (S off)) as [[t se]|] eqn:H3.
    + specialize (Hp3 t se eq_refl).
      destruct t; try (exfalso; apply H2; exact Hp3);
      run_tokens;
      (match goal with |- context [pairs (S off) ?b] =>
         destruct (pairs (S off) b) as [rhs o al|e] eqn:Hp end);
      cbn;
      first
        [ eexists _, (S off), _; split; [reflexivity|]; simpl; solve [auto]
        | eexists _, o, _; split; [reflexivity|]; simpl; split; [eauto|];
          intros HP; exfalso; apply HP;
          specialize (Hno _ _ _ _ Hp); congruence ].
    + assert (Hnone : tok_at inp (S off) = None)
        by (unfold tok_at; rewrite H3; reflexivity).
      run_tokens;
      (match goal with |- context [pairs (S off) ?b] =>
         destruct (pairs (S off) b) as [rhs o al|e] eqn:Hp end);
      cbn.
      * exfalso. specialize (Hno _ _ _ _ Hp). congruence.
      * eexists _, (S off), _; split; [reflexivity|]. simpl. auto.
Qed.

Lemma variadic_before_atom_witness :
  (exists al, sexpr_reader (read_input "foo...") 2 0 None =
     POk (Sexpr_new (SexprKind_List [sym_sexpr "varg" (mkSpan 0 6) (mkSpan 0 6);
                                     sym_sexpr "foo" (mkSpan 0 6) (mkSpan 0 6)])
            (mkSpan 0 6))
         2 al)
  /\ (exists a o al,
        sexpr_reader (read_input "foo") 2 0 None
        = POk (Sexpr_new (SexprKind_Atom a) (span (read_input "foo") 0 o)) o al
        /\ atom_kind a = AtomKind.Sym "foo" /\ o = 1).
Proof.
  split.
  - apply (proj1 (variadic_before_atom (read_input "foo...") 1 0 None "foo" (mkSpan 0 3)
                    ltac:(vm_compute; reflexivity))).
    vm_compute; reflexivity.
  - destruct (proj2 (variadic_before_atom (read_input "foo") 1 0 None "foo" (mkSpan 0 3)
                       ltac:(vm_compute; reflexivity))
                ltac:(vm_compute; discriminate)) as (a & o & al & H1 & _ & H3).
    destruct (H3 ltac:(vm_compute; discriminate)) as [H4 H5].
    exists a, o, al. auto.
Defined.

(** ** Dotted paths *)

(** C10: an identifier followed by one or more '.'-identifier pairs is read
    as a single atom of kind Path holding all the names in order (at least
    two of them); a lone identifier is read as a symbol, not a path. *)
Theorem dotted_path_reads_one_path_atom x s0 ys len :
  ys <> [] ->
  (exists sp rsp,
     read_lexed (lexed_of ((Token.Ident x, s0) :: path_pairs ys)) len =
     (Some (Root_new
              [Sexpr_new
                 (SexprKind_Atom (Atom_new (AtomKind.Path (x :: path_names ys)) sp)) sp]
              rsp), [])
     /\ 2 <= List.length (x :: path_names ys))
  /\ (exists sp rsp,
        read_lexed (lexed_of [(Token.Ident x, s0)]) len =
        (Some (Root_new [Sexpr_new (SexprKind_Atom (Atom_new (AtomKind.Sym x) sp)) sp] rsp),
         [])).
Proof.
  intros Hne. split.
  - destruct (path_read x s0 ys len Hne) as (sp & rsp & H).
    exists sp, rsp. split; [exact H|].
    destruct ys; [congruence|]. simpl. lia.
  - eexists _, _. cbv. reflexivity.
Qed.

Lemma dotted_path_reads_one_path_atom_witness :
  lexed_of ((Token.Ident "a", mkSpan 0 1)
              :: path_pairs [("b", mkSpan 1 2, mkSpan 2 3); ("c", mkSpan 3 4, mkSpan 4 5)])
  = lex "a.b.c"
  /\ exists sp rsp,
       read "a.b.c" =
       (Some (Root_new
                [Sexpr_new (SexprKind_Atom (Atom_new (AtomKind.Path ["a"; "b"; "c"]) sp)) sp]
                rsp), []).
Proof.
  assert (Hlex : lexed_of ((Token.Ident "a", mkSpan 0 1)
                   :: path_pairs [("b", mkSpan 1 2, mkSpan 2 3); ("c", mkSpan 3 4, mkSpan 4 5)])
                 = lex "a.b.c") by (vm_compute; reflexivity).
  split; [exact Hlex|].
  destruct (dotted_path_reads_one_path_atom "a" (mkSpan 0 1)
              [("b", mkSpan 1 2, mkSpan 2 3); ("c", mkSpan 3 4, mkSpan 4 5)]
              (String.length "a.b.c") ltac:(discriminate)) as [(sp & rsp & H & _) _].
  exists sp, rsp. unfold read. rewrite <- Hlex. exact H.
Defined.

(** * Further properties of the reader *)

Lemma stop_token_fails inp f off a t s :
  In t stop_tokens -> nth_error (toks inp) off = Some (t, s) ->
  exists e, sexpr_reader inp f off a = PErr e.
Proof.
  intros Ht H. destruct f as [|f]; [eexists; reflexivity|].
  cbn [sexpr_reader]. unfold_grammar.
  simpl in Ht; destruct Ht as [<-|[<-|[<-|[<-|[]]]]]; run_tokens; eauto.
Qed.

(** An input that lexes to no token at all (empty or blank source) reads
    as an empty root spanning the end of input, with no error. *)
Theorem read_no_tokens len :
  read_lexed [] len = (Some (Root_new [] (mkSpan len len)), []).
Proof. reflexivity. Qed.

(** A literal token (integer, real, rational, boolean or string) is read as
    one literal atom carrying the token's span, and nothing more is consumed. *)
Theorem lit_token_reads_lit_atom inp f off alt t s l :
  nth_error (toks inp) off = Some (t, s) ->
  lit_reader inp off None = POk l (S off) None ->
  exists al, sexpr_reader inp (S f) off alt =
    POk (Sexpr_new (SexprKind_Atom (Atom_new (AtomKind.Lit l) s)) s) (S off) al.
Proof.
  intros H1 Hl.
  assert (Hsp : span inp off (S off) = s) by (eapply token_span_self; eauto).
  rewrite <- Hsp.
  unfold lit_reader, select, tok_at in Hl. rewrite H1 in Hl.
  cbn [sexpr_reader]. unfold_grammar.
  destruct t; try discriminate; injection Hl as <-; run_tokens; eexists; reflexivity.
Qed.

Lemma lit_token_reads_lit_atom_witness :
  lit_reader (read_input "42") 0 None = POk (Lit.Int 42) 1 None
  /\ exists al, sexpr_reader (read_input "42") 2 0 None =
       POk (int_at 42 (mkSpan 0 2)) 1 al.
Proof.
  assert (H : lit_reader (read_input "42") 0 None = POk (Lit.Int 42) 1 None)
    by (vm_compute; reflexivity).
  split; [exact H|].
  exact (lit_token_reads_lit_atom (read_input "42") 1 0 None (Token.Int 42) (mkSpan 0 2)
           (Lit.Int 42) ltac:(vm_compute; reflexivity) H).
Defined.

(** A closing ')' or ']', a '.' or a '...' never starts a form, and an input
    whose first token is one of them reads to no tree and a single
    ParseError at that token. *)
Theorem stop_token_first_is_error t s rest len :
  In t stop_tokens ->
  (forall inp f off a, nth_error (toks inp) off = Some (t, s) ->
     exists e, sexpr_reader inp f off a = PErr e)
  /\ read_lexed (lexed_of ((t, s) :: rest)) len = (None, [ParseError s]).
Proof.
  intros Ht. split.
  - intros inp f off a H. eapply stop_token_fails; eauto.
  - unfold read_lexed. cbv zeta. rewrite lexed_of_no_errors, lexed_of_tokens.
    simpl in Ht; destruct Ht as [<-|[<-|[<-|[<-|[]]]]]; reflexivity.
Qed.

Lemma stop_token_first_is_error_witness :
  In Token.RParen stop_tokens
  /\ read ") 1" = (None, [ParseError (mkSpan 0 1)]).
Proof.
  assert (Ht : In Token.RParen stop_tokens) by (simpl; auto).
  split; [exact Ht|].
  assert (Hlex : lex ") 1" = lexed_of [(Token.RParen, mkSpan 0 1); (Token.Int 1, mkSpan 2 3)])
    by (vm_compute; reflexivity).
  unfold read. rewrite Hlex.
  exact (proj2 (stop_token_first_is_error Token.RParen (mkSpan 0 1)
                  [(Token.Int 1, mkSpan 2 3)] (String.length ") 1") Ht)).
Defined.

(** '(' followed by one or more forms [l] and ')' is read as a [List] node
    with exactly the children [l], in order and with no head added, and the
    closing ')' is consumed. *)
Theorem paren_list_reads_children inp f off alt sb l o a1 a1' sr :
  nth_error (toks inp) off = Some (Token.LParen, sb) ->
  repeated inp (sexpr_reader inp f) (S off) a1 = POk l o a1' ->
  l <> [] ->
  nth_error (toks inp) o = Some (Token.RParen, sr) ->
  exists sp al, sexpr_reader inp (S f) off alt =
    POk (Sexpr_new (SexprKind_List l) sp) (S o) al.
Proof.
  intros Hl Hr Hne Hrp.
  apply repeated_at_least1 in Hr; [|exact Hne].
  pose proof (at_least_any_alt inp 1 (sexpr_reader inp f) (S off) a1 l o a1'
                (sexpr_reader_alt_indep inp f) Hr) as Hany.
  cbn [sexpr_reader]. unfold_grammar. run_tokens.
  match goal with |- context [at_least inp 1 (sexpr_reader inp f) (S off) ?b] =>
    destruct (Hany b) as [b' ->] end.
  run_tokens. eexists _, _; reflexivity.
Qed.

Lemma paren_list_reads_children_witness :
  repeated (read_input "(1 2)") (sexpr_reader (read_input "(1 2)") 3) 1 None
  = POk [int_at 1 (mkSpan 1 2); int_at 2 (mkSpan 3 4)] 3 (Some 3)
  /\ exists sp al, sexpr_reader (read_input "(1 2)") 4 0 None =
       POk (Sexpr_new (SexprKind_List [int_at 1 (mkSpan 1 2); int_at 2 (mkSpan 3 4)])
              sp) 4 al.
Proof.
  assert (H : repeated (read_input "(1 2)") (sexpr_reader (read_input "(1 2)") 3) 1 None
              = POk [int_at 1 (mkSpan 1 2); int_at 2 (mkSpan 3 4)] 3 (Some 3))
    by (vm_compute; reflexivity).
  split; [exact H|].
  refine (paren_list_reads_children (read_input "(1 2)") 3 0 None (mkSpan 0 1) _ 3 None
            (Some 3) (mkSpan 4 5) _ H _ _).
  - vm_compute; reflexivity.
  - discriminate.
  - vm_compute; reflexivity.
Defined.

(** '(' directly followed by ')' is not a form: the reader fails there. *)
Theorem empty_parens_not_a_form inp f off alt sl sr :
  nth_error (toks inp) off = Some (Token.LParen, sl) ->
  nth_error (toks inp) (S off) = Some (Token.RParen, sr) ->
  exists e, sexpr_reader inp f off alt = PErr e.
Proof.
  intros H1 H2. destruct f as [|f]; [eexists; reflexivity|].
  cbn [sexpr_reader]. unfold_grammar. run_tokens.
  unfold at_least. cbn [repeated_go].
  match goal with |- context [sexpr_reader inp f (S off) ?b] =>
    destruct (stop_token_fails inp f (S off) b Token.RParen sr ltac:(simpl; auto) H2)
      as [e ->] end.
  cbn. run_tokens. eauto.
Qed.

Lemma empty_parens_not_a_form_witness :
  nth_error (toks (read_input "(x ())")) 2 = Some (Token.LParen, mkSpan 3 4)
  /\ nth_error (toks (read_input "(x ())")) 3 = Some (Token.RParen, mkSpan 4 5)
  /\ exists e, sexpr_reader (read_input "(x ())") 7 2 None = PErr e.
Proof.
  assert (H1 : nth_error (toks (read_input "(x ())")) 2 = Some (Token.LParen, mkSpan 3 4))
    by (vm_compute; reflexivity).
  assert (H2 : nth_error (toks (read_input "(x ())")) 3 = Some (Token.RParen, mkSpan 4 5))
    by (vm_compute; reflexivity).
  split; [exact H1|]. split; [exact H2|].
  exact (empty_parens_not_a_form (read_input "(x ())") 7 2 None _ _ H1 H2).
Defined.


Lemma read_lexed_top_forms lexed len r errs :
  spans_ordered lexed len = true ->
  read_lexed lexed len = (Some r, errs) ->
  exists inp o1 a1,
    ordered inp
    /\ repeated inp (sexpr_reader inp (S (List.length (toks inp)))) 0 None
       = POk (sexprs r) o1 a1
    /\ root_span r = span inp 0 o1.
Proof.
  intros Hso Hr.
  apply read_lexed_parsed in Hr as (inp & xs & o1 & a1 & a2 & Ht & He & Hrep & _ & -> & _).
  destruct inp as [ts e]; simpl in Ht, He; subst ts e.
  pose proof (spans_ordered_ordered
                (fun r => match r with Some t => t | None => Token.Error end)
                lexed len Hso) as Ho.
  eexists _, o1, a1. split; [exact Ho|]. split; [exact Hrep|reflexivity].
Qed.

(** When the lexer's spans are in source order, the span of the root of a
    successful read contains the span of each top-level form. *)
Theorem root_span_covers_forms lexed len r errs :
  spans_ordered lexed len = true ->
  read_lexed lexed len = (Some r, errs) ->
  forallb (fun s => span_within (sexpr_span s) (root_span r)) (sexprs r) = true.
Proof.
  intros Hso Hr.
  destruct (read_lexed_top_forms lexed len r errs Hso Hr) as (inp & o1 & a1 & Ho & Hrep & ->).
  destruct (at_least_ok _ Ho 0 _ 0 None _ o1 a1 (sexpr_reader_ok _ Ho _) Hrep)
    as (_ & _ & _ & Hall).
  apply forallb_forall. intros s Hs.
  rewrite Forall_forall in Hall. apply Hall in Hs as [Hw _]. exact Hw.
Qed.

Lemma root_span_covers_forms_witness :
  spans_ordered (lex "a (b c) 'd") 10 = true
  /\ forallb (fun s => span_within (sexpr_span s)
                        (root_span (match fst (read "a (b c) 'd") with
                                    | Some r => r | None => Root_new [] span0 end)))
       (sexprs (match fst (read "a (b c) 'd") with
                | Some r => r | None => Root_new [] span0 end)) = true.
Proof.
  assert (H : spans_ordered (lex "a (b c) 'd") 10 = true) by (vm_compute; reflexivity).
  split; [exact H|].
  apply (root_span_covers_forms (lex "a (b c) 'd") 10 _ [] H).
  vm_compute; reflexivity.
Defined.

(** When the lexer's spans are in source order, every node of a
    successfully read tree has a span containing the spans of all its
    children, and an atom's span contains the atom's own span. *)
Theorem read_spans_nested lexed len r errs :
  spans_ordered lexed len = true ->
  read_lexed lexed len = (Some r, errs) ->
  forallb spans_nested (sexprs r) = true.
Proof.
  intros Hso Hr.
  apply read_lexed_parsed in Hr as (inp & xs & o1 & a1 & a2 & Ht & He & Hrep & _ & -> & _).
  destruct inp as [ts e]; simpl in Ht, He; subst ts e.
  pose proof (spans_ordered_ordered
                (fun r => match r with Some t => t | None => Token.Error end)
                lexed len Hso) as Ho.
  destruct (at_least_ok _ Ho 0 _ 0 None xs o1 a1 (sexpr_reader_ok _ Ho _) Hrep)
    as (_ & _ & _ & Hall).
  simpl. apply forallb_forall. intros s Hs.
  rewrite Forall_forall in Hall. apply Hall in Hs as [_ Hn]. exact Hn.
Qed.

Lemma read_spans_nested_witness :
  spans_ordered (lex "[(1 2) 'x]") 10 = true
  /\ forallb spans_nested (sexprs (match fst (read "[(1 2) 'x]") with
                                  | Some r => r
                                  | None => Root_new [] span0
                                  end)) = true.
Proof.
  split; [vm_compute; reflexivity|].
  apply (read_spans_nested (lex "[(1 2) 'x]") 10 _ []).
  - vm_compute; reflexivity.
  - vm_compute; reflexivity.
Defined.

Lemma forms_in_order_snoc l e :
  forms_in_order l = true ->
  Forall (fun y => sp_end (sexpr_span y) <= sp_start (sexpr_span e)) l ->
  forms_in_order (app l [e]) = true.
Proof.
  induction l as [|a l IH]; [reflexivity|].
  intros H HF. inversion HF as [|? ? Ha HF']; subst.
  destruct l as [|b l'].
  - simpl. rewrite andb_true_r. apply Nat.leb_le; exact Ha.
  - simpl in H |- *. apply andb_prop in H as [H1 H2]. rewrite H1.
    apply IH; assumption.
Qed.

Section Order.
Variable inp : Input.
Hypothesis Hord : ordered inp.

Lemma repeated_go_in_order (p : Parser Sexpr) :
  ok_prop inp p ->
  forall fuel off a acc xs o al lo,
    repeated_go p fuel off a acc = (xs, o, al) ->
    lo <= off -> (acc <> [] -> lo < off) -> Forall (within_range inp lo off) acc ->
    forms_in_order (rev acc) = true ->
    forms_in_order xs = true.
Proof.
  intros Hp fuel; induction fuel as [|f IH];
    intros off a acc xs o al lo H Hlo Hne Hall Hin; simpl in H.
  - injection H as <- <- <-. exact Hin.
  - destruct (p off a) as [x o1 a1|e] eqn:E.
    + apply Hp in E as [Hlt Hx].
      apply (IH _ _ _ _ _ _ lo H); [lia | intros _; lia | |].
      * constructor.
        -- eapply within_range_widen; [exact Hord| | |exact Hx]; lia.
        -- eapply Forall_impl; [|exact Hall].
           intros s; apply within_range_widen; [exact Hord|lia|lia].
      * simpl. apply forms_in_order_snoc; [exact Hin|].
        apply Forall_rev. destruct acc as [|y acc']; [constructor|].
        assert (Hoff : 0 < off) by (specialize (Hne ltac:(discriminate)); lia).
        assert (Hgap : tok_end_before inp off <= tok_start inp off).
        { destruct off as [|k]; [lia|]. destruct (Hord k) as [_ Hk]. exact Hk. }
        destruct Hx as [Hxw _].
        unfold span_within, span in Hxw; simpl in Hxw.
        apply andb_prop in Hxw as [Hxs _]. apply Nat.leb_le in Hxs.
        eapply Forall_impl; [|exact Hall].
        intros s [Hsw _]. unfold span_within, span in Hsw; simpl in Hsw.
        apply andb_prop in Hsw as [_ Hse]. apply Nat.leb_le in Hse. lia.
    + injection H as <- <- <-. exact Hin.
Qed.
End Order.

(** When the lexer's spans are in source order, the top-level forms of a
    successful read come in source order: each one ends before the next
    one starts. *)
Theorem top_forms_in_order lexed len r errs :
  spans_ordered lexed len = true ->
  read_lexed lexed len = (Some r, errs) ->
  forms_in_order (sexprs r) = true.
Proof.
  intros Hso Hr.
  destruct (read_lexed_top_forms lexed len r errs Hso Hr) as (inp & o1 & a1 & Ho & Hrep & _).
  unfold repeated, at_least in Hrep.
  destruct (repeated_go _ _ 0 None []) as [[ys o2] a2] eqn:E.
  injection Hrep as <- _ _.
  eapply (repeated_go_in_order inp Ho _ (sexpr_reader_ok inp Ho _) _ _ _ _ _ _ _ 0 E);
    [lia | intros []; reflexivity | constructor | reflexivity].
Qed.

Lemma top_forms_in_order_witness :
  spans_ordered (lex "a (b c) 'd") 10 = true
  /\ forms_in_order (sexprs (match fst (read "a (b c) 'd") with
                             | Some r => r | None => Root_new [] span0 end)) = true.
Proof.
  assert (H : spans_ordered (lex "a (b c) 'd") 10 = true) by (vm_compute; reflexivity).
  split; [exact H|].
  apply (top_forms_in_order (lex "a (b c) 'd") 10 _ [] H).
  vm_compute; reflexivity.
Defined.

(** In every successful read, each '.' token is directly followed by an
    identifier token: the ". name" pairs of a path are the only place the
    grammar accepts a '.'.  So an input with a '.' that is not followed by a
    name (as in "a." or "a.(b)") reads to no tree. *)
Theorem read_period_followed_by_name lexed len r errs k sp :
  read_lexed lexed len = (Some r, errs) ->
  nth_error lexed k = Some (Some Token.Period, sp) ->
  exists y sy, nth_error lexed (S k) = Some (Some (Token.Ident y), sy).
Proof.
  intros Hr Hk.
  apply read_lexed_parsed in Hr as (inp & xs & o1 & a1 & a2 & Ht & _ & Hrep & Hend & _).
  assert (Hlen : List.length (toks inp) <= o1).
  { unfold end_ in Hend. destruct (Nat.leb _ o1) eqn:E; [|discriminate].
    apply Nat.leb_le; exact E. }
  destruct (at_least_periods_ok inp 0 _ (sexpr_reader_periods_ok inp _) 0 None xs o1 a1 Hrep)
    as [_ Hn].
  assert (Htk : tok_at inp k = Some Token.Period)
    by (unfold tok_at; rewrite Ht, nth_error_map, Hk; reflexivity).
  assert (Hk' : k < List.length (toks inp)).
  { rewrite Ht, length_map. apply nth_error_Some. rewrite Hk. discriminate. }
  destruct (Hn k ltac:(lia) ltac:(lia) Htk) as [_ [y Hy]].
  unfold tok_at in Hy. rewrite Ht, nth_error_map in Hy.
  destruct (nth_error lexed (S k)) as [[[t|] sy]|]; simpl in Hy; try discriminate.
  injection Hy as ->. eauto.
Qed.

Lemma read_period_followed_by_name_witness :
  read_lexed (lex "a.b") 3
  = (Some (match fst (read_lexed (lex "a.b") 3) with
           | Some r => r | None => Root_new [] span0 end), [])
  /\ nth_error (lex "a.b") 1 = Some (Some Token.Period, mkSpan 1 2)
  /\ exists y sy, nth_error (lex "a.b") 2 = Some (Some (Token.Ident y), sy).
Proof.
  assert (H1 : read_lexed (lex "a.b") 3
               = (Some (match fst (read_lexed (lex "a.b") 3) with
                        | Some r => r | None => Root_new [] span0 end), []))
    by (vm_compute; reflexivity).
  assert (H2 : nth_error (lex "a.b") 1 = Some (Some Token.Period, mkSpan 1 2))
    by (vm_compute; reflexivity).
  split; [exact H1|]. split; [exact H2|].
  exact (read_period_followed_by_name (lex "a.b") 3 _ [] 1 (mkSpan 1 2) H1 H2).
Defined.
